(** * binviz: point-cloud construction and camera control

    A shallow embedding of [binviz.cpp].  The file follows the source from
    top to bottom: the machine integers it computes with, the [Point]
    record, the input callbacks, [loadFile] with its packing loop, sort and
    duplicate-counting walk, and the damping step of the render loop. *)

From Stdlib Require Import ZArith List Bool Lia Strings.Byte Sorting Orders Mergesort
  Permutation Reals Lra Floats.
Import ListNotations.

Local Open Scope Z_scope.

(** ** Machine integers

    [int] is a 32-bit two's-complement integer.  Arithmetic that can leave
    the range is written with [wrap32]. *)

Module Int.

Definition wrap32 (z : Z) : Z := (z + 2 ^ 31) mod 2 ^ 32 - 2 ^ 31.

Definition in_range (z : Z) : Prop := - 2 ^ 31 <= z < 2 ^ 31.

Definition add (a b : Z) : Z := wrap32 (a + b).

Definition shl (a n : Z) : Z := wrap32 (Z.shiftl a n).

(** [>>] on a signed [int] is the arithmetic shift. *)
Definition shr (a n : Z) : Z := Z.shiftr a n.

End Int.

(** ** Plain [char]

    [buffer] is a [char*].  Whether plain [char] is signed is a property of
    the compilation target; the flag [char_signed] selects it.  A file byte
    [b >= 0x80] read through a signed [char] is the negative value
    [b - 256]. *)

Definition byte_val (b : byte) : Z := Z.of_N (Byte.to_N b).

Definition char_of_byte (char_signed : bool) (b : byte) : Z :=
  let n := byte_val b in
  if char_signed && (128 <=? n) then n - 256 else n.

(** Body of the packing loop, lines 96-98:
    [int x = buffer[i+2]; x = (x << 8) + buffer[i+1]; x = (x << 8) + buffer[i];] *)
Definition pack (c0 c1 c2 : Z) : Z :=
  let x := c2 in
  let x := Int.add (Int.shl x 8) c1 in
  let x := Int.add (Int.shl x 8) c0 in
  x.

(** The packing loop, lines 94-100: [for (i = 0; i + 2 < length; i += 3)]. *)
Fixpoint pack_loop (buffer : list Z) : list Z :=
  match buffer with
  | c0 :: c1 :: c2 :: rest => pack c0 c1 c2 :: pack_loop rest
  | _ => []
  end.

Module IntOrder <: TotalLeBool.
Definition t := Z.
Definition leb := Z.leb.
Theorem leb_total : forall a b, leb a b = true \/ leb b a = true.
Proof. intros a b; unfold leb; rewrite !Z.leb_le; lia. Qed.
End IntOrder.

Module IntSort := Sort IntOrder.

(** ** Unpacking, lines 118-120

    [(packed >> 16) & 0xFF], [(packed >> 8) & 0xFF], [packed & 0xFF]. *)

Definition unpack_x (packed : Z) : Z := Z.land (Int.shr packed 16) 255.
Definition unpack_y (packed : Z) : Z := Z.land (Int.shr packed 8) 255.
Definition unpack_z (packed : Z) : Z := Z.land packed 255.

(** ** [struct Point], lines 16-25

    The coordinates are [float]s; they are read here as the real numbers
    the float expressions denote, so that [sin] and [cos] are the
    mathematical functions.  [count] is an [int]. *)

Record Point : Type := mkPoint { x : R; y : R; z : R; count : Z }.

(** The constructor [Point(X, Y, Z)] assigns [x], [y] and [z] and nothing
    else: [count] keeps whatever the freshly allocated object holds.  That
    value is the argument [residue]. *)
Definition new_Point (residue : Z) (X Y Z : R) : Point :=
  {| x := X; y := Y; z := Z; count := residue |}.

(** [#define PI 3.14159265358979323846264f]; named [PIf] to keep it apart
    from the library's real number [PI]. *)
Definition PIf : R := 3.14159265358979323846264%R.

(** Lines 118-126: normalised components, angles and radius of a key. *)
Definition x_norm (packed : Z) : R := (IZR (unpack_x packed) / 255)%R.
Definition y_norm (packed : Z) : R := (IZR (unpack_y packed) / 255)%R.
Definition z_norm (packed : Z) : R := (IZR (unpack_z packed) / 255)%R.

Definition xRot (packed : Z) : R := (x_norm packed * (2 * PIf))%R.
Definition yRot (packed : Z) : R := (y_norm packed * (2 * PIf))%R.
Definition radius (packed : Z) : R := z_norm packed.

(** Lines 130-134: the point emplaced for a key. *)
Definition point_of (residue : Z) (packed : Z) : Point :=
  new_Point residue
    (radius packed * sin (xRot packed) * cos (yRot packed))%R
    (radius packed * sin (xRot packed) * sin (yRot packed))%R
    (radius packed * cos (xRot packed))%R.

(** ** The duplicate-counting walk, lines 106-135 *)

(** [points.back()->count++]; an overflow wraps around. *)
Definition count_up (p : Point) : Point :=
  {| x := x p; y := y p; z := z p; count := Int.add (count p) 1 |}.

Fixpoint incr_back (points : list Point) : list Point :=
  match points with
  | [] => []
  | [p] => [count_up p]
  | p :: ps => p :: incr_back ps
  end.

(** The guard [i > 0 && packed == sortBuffer[i - 1]]; [prev] is [None] in
    the first iteration and [Some sortBuffer[i - 1]] afterwards. *)
Definition is_duplicate (prev : option Z) (packed : Z) : bool :=
  match prev with
  | Some q => packed =? q
  | None => false
  end.

(** One run of the loop over the rest of [sortBuffer].  [uninit n] is the
    value found in the [count] field of the object allocated for the point
    of index [n].  The local [duplicate] is written and never read, and is
    left out. *)
Fixpoint walk (uninit : nat -> Z) (prev : option Z) (sortBuffer : list Z)
    (points : list Point) : list Point :=
  match sortBuffer with
  | [] => points
  | packed :: rest =>
      walk uninit (Some packed) rest
        (if is_duplicate prev packed then incr_back points
         else points ++ [point_of (uninit (length points)) packed])
  end.

(** The keys at which the walk emplaces a point, in emission order. *)
Fixpoint emitted (prev : option Z) (sortBuffer : list Z) : list Z :=
  match sortBuffer with
  | [] => []
  | packed :: rest =>
      if is_duplicate prev packed then emitted (Some packed) rest
      else packed :: emitted (Some packed) rest
  end.

(** ** [loadFile], lines 78-142

    [sort_keys] is the content of [sortBuffer] after [std::sort]; [build]
    is the body of the [if (is)] branch once the file is in [buffer]; it
    starts from the vector that [points.clear()] has emptied.  Lengths and
    indices are kept as unbounded numbers: the source holds them in [int],
    which is exact for files below 2 GiB. *)

Definition sort_keys (char_signed : bool) (bytes : list byte) : list Z :=
  IntSort.sort (pack_loop (map (char_of_byte char_signed) bytes)).

Definition build (char_signed : bool) (uninit : nat -> Z) (bytes : list byte)
  : list Point :=
  walk uninit None (sort_keys char_signed bytes) [].

(** [file] is [None] when the stream cannot be opened.  The result is the
    returned [int] and the global [points] after the call. *)
Definition loadFile (char_signed : bool) (uninit : nat -> Z)
    (file : option (list byte)) (points : list Point) : Z * list Point :=
  let points : list Point := [] in
  match file with
  | Some bytes =>
      let length := Z.of_nat (List.length bytes) in
      let length := length / 3 in
      (length, build char_signed uninit bytes)
  | None => (0, points)
  end.

(** The key of the specification, [(b2 << 16) | (b1 << 8) | b0]. *)
Definition spec_key (b0 b1 b2 : byte) : Z :=
  Z.lor (Z.lor (Z.shiftl (byte_val b2) 16) (Z.shiftl (byte_val b1) 8))
        (byte_val b0).

(** ** Arithmetic of the camera globals

    [lastMouseX], [lastMouseY], [zoomLevel] and [zoomTarget] are [double]s;
    [rotX], [rotY], [targetRotX] and [targetRotY] are [float]s, computed
    with in [double] and rounded to single precision when they are stored.
    The camera code is written once over the operations it uses.  The
    instance [binary64] is the arithmetic as executed, every operation
    rounded to its type: IEEE binary64 with [single] for a conversion to
    [float].  The instance [exact] reads the same expressions over the
    real numbers; it serves only where no operation rounds. *)

Class Arith (F : Type) : Type := {
  f_add : F -> F -> F;
  f_sub : F -> F -> F;
  f_mul : F -> F -> F;
  f_div : F -> F -> F;
  f_lt : F -> F -> bool;
  f_of_int : Z -> F;
  (** the literal [0.1] *)
  f_tenth : F;
  (** conversion of a [double] to [float] *)
  f_single : F -> F
}.

Definition float_of_int (n : Z) : float :=
  if n <? 0 then PrimFloat.opp (PrimFloat.of_uint63 (Uint63.of_Z (- n)))
  else PrimFloat.of_uint63 (Uint63.of_Z n).

(** Rounding of a binary64 value to the nearest binary32 value, ties to
    even, with overflow to infinity; the result is kept as the binary64
    value it is equal to. *)
Definition single (v : float) : float :=
  match Prim2SF v with
  | S754_finite s m e => SF2Prim (binary_round 24 128 s m e)
  | _ => v
  end.

#[export] Instance binary64 : Arith float := {|
  f_add := PrimFloat.add;
  f_sub := PrimFloat.sub;
  f_mul := PrimFloat.mul;
  f_div := PrimFloat.div;
  f_lt := PrimFloat.ltb;
  f_of_int := float_of_int;
  f_tenth := 0x1.999999999999ap-4%float;
  f_single := single
|}.

#[export] Instance exact : Arith R := {|
  f_add := Rplus;
  f_sub := Rminus;
  f_mul := Rmult;
  f_div := Rdiv;
  f_lt := fun a b => if Rlt_dec a b then true else false;
  f_of_int := IZR;
  f_tenth := (1 / 10)%R;
  f_single := fun v => v
|}.

(** ** The camera globals, lines 29-35 *)

Record Camera (F : Type) : Type := mkCamera {
  winWidth : Z;
  winHeight : Z;
  lastMouseX : F;
  lastMouseY : F;
  zoomLevel : F;
  zoomTarget : F;
  rotX : F;
  rotY : F;
  targetRotX : F;
  targetRotY : F;
  mouseDown : bool
}.

Arguments mkCamera {F}.
Arguments winWidth {F}.
Arguments winHeight {F}.
Arguments lastMouseX {F}.
Arguments lastMouseY {F}.
Arguments zoomLevel {F}.
Arguments zoomTarget {F}.
Arguments rotX {F}.
Arguments rotY {F}.
Arguments targetRotX {F}.
Arguments targetRotY {F}.
Arguments mouseDown {F}.

(** [GLFW_RELEASE] and [GLFW_PRESS] of [GLFW/glfw3.h]. *)
Definition GLFW_RELEASE : Z := 0.
Definition GLFW_PRESS : Z := 1.

Inductive DragState : Type := Idle | Dragging.

Section CameraCode.

Context {F : Type} `{Arith F}.

(** Globals at program start: [zoomLevel = zoomTarget = 1], everything
    else zero-initialised. *)
Definition initial : Camera F :=
  mkCamera 0 0 (f_of_int 0) (f_of_int 0) (f_of_int 1) (f_of_int 1)
    (f_of_int 0) (f_of_int 0) (f_of_int 0) (f_of_int 0) false.

Definition drag_state (c : Camera F) : DragState :=
  if mouseDown c then Dragging else Idle.

(** [cursorCallback], lines 50-58.  The right-hand sides are [double]s;
    [-=] stores the difference into a [float]. *)
Definition cursorCallback (c : Camera F) (x y : F) : Camera F :=
  let tx :=
    if mouseDown c
    then f_single
           (f_sub (targetRotX c)
              (f_mul (f_div (f_sub x (lastMouseX c)) (f_of_int (winWidth c)))
                     (f_of_int 100)))
    else targetRotX c in
  let ty :=
    if mouseDown c
    then f_single
           (f_sub (targetRotY c)
              (f_mul (f_div (f_sub y (lastMouseY c)) (f_of_int (winHeight c)))
                     (f_of_int 100)))
    else targetRotY c in
  mkCamera (winWidth c) (winHeight c) x y (zoomLevel c) (zoomTarget c)
    (rotX c) (rotY c) tx ty (mouseDown c).

(** [mouseButtonCallback], lines 60-63: [mouseDown = (action == GLFW_PRESS)]. *)
Definition mouseButtonCallback (c : Camera F) (button action mods : Z)
  : Camera F :=
  mkCamera (winWidth c) (winHeight c) (lastMouseX c) (lastMouseY c)
    (zoomLevel c) (zoomTarget c) (rotX c) (rotY c)
    (targetRotX c) (targetRotY c) (action =? GLFW_PRESS).

(** [scrollCallback], lines 65-76.  [shift] is
    [glfwGetKey(wind, GLFW_KEY_LEFT_SHIFT) == GLFW_PRESS]. *)
Definition scrollCallback (c : Camera F) (shift : bool) (xOffset yOffset : F)
  : Camera F :=
  let zt :=
    if shift then f_add (zoomTarget c) yOffset
    else f_add (zoomTarget c) (f_div yOffset (f_of_int 25)) in
  let zt := if f_lt zt f_tenth then f_tenth else zt in
  mkCamera (winWidth c) (winHeight c) (lastMouseX c) (lastMouseY c)
    (zoomLevel c) zt (rotX c) (rotY c)
    (targetRotX c) (targetRotY c) (mouseDown c).

(** The damping step of the render loop, lines 193-195.  [deltaTime] is a
    [double].  In lines 194-195 the difference of the two [float]s is a
    [float] (the binary64 difference of two binary32 values, rounded to
    binary32, is their binary32 difference), the product and the sum are
    [double]s, and [+=] stores the sum into a [float]. *)
Definition advance (deltaTime : F) (c : Camera F) : Camera F :=
  mkCamera (winWidth c) (winHeight c) (lastMouseX c) (lastMouseY c)
    (f_add (zoomLevel c) (f_mul (f_sub (zoomTarget c) (zoomLevel c)) deltaTime))
    (zoomTarget c)
    (f_single
       (f_add (rotX c)
          (f_mul (f_single (f_sub (targetRotX c) (rotX c))) deltaTime)))
    (f_single
       (f_add (rotY c)
          (f_mul (f_single (f_sub (targetRotY c) (rotY c))) deltaTime)))
    (targetRotX c) (targetRotY c) (mouseDown c).

(** A scroll event: the shift flag and the vertical offset. *)
Definition scroll_all (events : list (bool * F)) (c : Camera F) : Camera F :=
  fold_left (fun c e => scrollCallback c (fst e) (f_of_int 0) (snd e)) events c.

(** [max(a, b)] as [std::max]: [b] when [a < b], [a] otherwise. *)
Definition f_max (a b : F) : F := if f_lt a b then b else a.

(** The camera after [n] frames of equal [deltaTime] with no input event
    in between. *)
Definition frames (n : nat) (deltaTime : F) (c : Camera F) : Camera F :=
  Nat.iter n (advance deltaTime) c.

End CameraCode.

(** ** Observations on the point vector *)

Definition position (p : Point) : R * R * R := (x p, y p, z p).

(** Position of the point emplaced for a key. *)
Definition spherical (packed : Z) : R * R * R := position (point_of 0 packed).

Definition norm2 (p : Point) : R := (x p * x p + y p * y p + z p * z p)%R.

Definition sum_counts (points : list Point) : Z :=
  fold_right (fun p s => count p + s) 0 points.

(** The input of the specification's scenario. *)
Definition scenario : list byte :=
  [x00; x00; x00; x00; x00; x00; xff; xff; xff].

(** A [double] that is neither infinite nor NaN. *)
Definition finite64 (v : float) : bool :=
  match Prim2SF v with
  | S754_finite _ _ _ | S754_zero _ => true
  | _ => false
  end.

(** A finite [double] other than the negative zero. *)
Definition proper_target (v : float) : bool :=
  match Prim2SF v with
  | S754_finite _ _ _ | S754_zero false => true
  | _ => false
  end.

(** [p] is the spherical-to-Cartesian image of the key [packed]. *)
Definition on_sphere_of (packed : Z) (p : Point) : Prop :=
  (x p = radius packed * sin (xRot packed) * cos (yRot packed)
   /\ y p = radius packed * sin (xRot packed) * sin (yRot packed)
   /\ z p = radius packed * cos (xRot packed))%R.

(** The keys of the specification for a whole input, one per complete
    triplet. *)
Fixpoint spec_keys (bytes : list byte) : list Z :=
  match bytes with
  | b0 :: b1 :: b2 :: rest => spec_key b0 b1 b2 :: spec_keys rest
  | _ => []
  end.

(** ** The rest of the program *)

(** The complete triplets of a file, in file order, and the key the
    packing loop computes for one of them. *)
Fixpoint triplets (bytes : list byte) : list (byte * byte * byte) :=
  match bytes with
  | b0 :: b1 :: b2 :: rest => (b0, b1, b2) :: triplets rest
  | _ => []
  end.

Definition key_of (char_signed : bool) (t : byte * byte * byte) : Z :=
  let '(b0, b1, b2) := t in
  pack (char_of_byte char_signed b0) (char_of_byte char_signed b1)
       (char_of_byte char_signed b2).

(** [keyCallback], lines 41-48.  [shouldClose] is the close flag of the
    window, which [glfwSetWindowShouldClose(wind, GL_TRUE)] raises;
    [GLFW_KEY_ESCAPE] is the constant of [GLFW/glfw3.h]. *)
Definition GLFW_KEY_ESCAPE : Z := 256.

Definition keyCallback (shouldClose : bool) (key sc action mods : Z) : bool :=
  if action =? GLFW_PRESS then
    if key =? GLFW_KEY_ESCAPE then true else shouldClose
  else shouldClose.

Definition key_all (events : list (Z * Z * Z * Z)) (shouldClose : bool) : bool :=
  fold_left (fun f e => let '(key, sc, action, mods) := e in
                        keyCallback f key sc action mods) events shouldClose.

(** What opening [argv[1]] finds when the stream can be opened: a
    regular file with its bytes, or a stream whose position cannot be told
    (a directory), for which [tellg] returns -1. *)
Inductive Opened : Type :=
  | Regular (bytes : list byte)
  | Unseekable.

(** [int length = is.tellg()], line 84: the position at the end of the
    stream, converted to [int]. *)
Definition stream_length (o : Opened) : Z :=
  Int.wrap32 (match o with
              | Regular bytes => Z.of_nat (length bytes)
              | Unseekable => -1
              end).

(** What [is.read(buffer, length)] puts into [buffer], line 89. *)
Definition stream_buffer (o : Opened) : list byte :=
  match o with
  | Regular bytes => firstn (Z.to_nat (stream_length o)) bytes
  | Unseekable => []
  end.

(** The start of [main], lines 145-173, up to the render loop: the
    program has left with a status, or it was aborted by an exception that
    nothing catches, or it holds the points it will draw.  [new
    char[length]] throws when [length] is negative; [heap_ok] tells
    whether the allocations of [loadFile] are granted otherwise.
    [glfwInit_ok] and [window_ok] are the outcomes of [glfwInit] and
    [glfwCreateWindow]. *)
Definition EXIT_FAILURE : Z := 1.

Inductive Startup : Type :=
  | Exited (status : Z)
  | Aborted
  | Rendering (points : list Point).

Definition main_startup (char_signed : bool) (uninit : nat -> Z) (argc : Z)
    (file : option Opened) (heap_ok glfwInit_ok window_ok : bool) : Startup :=
  if argc <? 2 then Exited EXIT_FAILURE
  else
    match file with
    | None => Exited EXIT_FAILURE
    | Some o =>
        if (stream_length o <? 0) || negb heap_ok then Aborted
        else
          let '(length, points) :=
            loadFile char_signed uninit (Some (stream_buffer o)) [] in
          if length =? 0 then Exited EXIT_FAILURE
          else if negb glfwInit_ok then Exited EXIT_FAILURE
          else if negb window_ok then Exited EXIT_FAILURE
          else Rendering points
    end.

(** The colour of the vertex of index [i] out of [n], lines 220-226; the
    quotients are read as real numbers. *)
Definition vertex_color (i n : nat) (p : Point) : R * R * R :=
  let count := (IZR (count p) / 10)%R in
  let color := (INR i / INR n)%R in
  (color, 1 - count, 1 - count * color)%R.

(** What one pass of the drawing loop, lines 219-228, hands to OpenGL:
    colour and vertex of every point, in vector order. *)
Definition draw (points : list Point) : list ((R * R * R) * (R * R * R)) :=
  map (fun ip => (vertex_color (fst ip) (length points) (snd ip),
                  position (snd ip)))
      (combine (seq 0 (length points)) points).

(** ** The render loop as a trace of events

    One turn of the loop, lines 188-234, damps the camera, reads the
    framebuffer size and, in [glfwPollEvents], runs the callbacks of the
    pending input events. *)

Inductive Event (F : Type) : Type :=
  | Frame (deltaTime : F) (width height : Z)
  | CursorPos (xpos ypos : F)
  | MouseButton (button action mods : Z)
  | Scroll (shift : bool) (xOffset yOffset : F).

Arguments Frame {F}.
Arguments CursorPos {F}.
Arguments MouseButton {F}.
Arguments Scroll {F}.

Section Events.

Context {F : Type} `{Arith F}.

(** [glfwGetFramebufferSize(window, &winWidth, &winHeight)] *)
Definition set_size (c : Camera F) (width height : Z) : Camera F :=
  mkCamera width height (lastMouseX c) (lastMouseY c)
    (zoomLevel c) (zoomTarget c) (rotX c) (rotY c)
    (targetRotX c) (targetRotY c) (mouseDown c).

Definition handle (c : Camera F) (e : Event F) : Camera F :=
  match e with
  | Frame deltaTime width height => set_size (advance deltaTime c) width height
  | CursorPos xpos ypos => cursorCallback c xpos ypos
  | MouseButton button action mods => mouseButtonCallback c button action mods
  | Scroll shift xOffset yOffset => scrollCallback c shift xOffset yOffset
  end.

Definition run (events : list (Event F)) (c : Camera F) : Camera F :=
  fold_left handle events c.

(** A sequence of cursor positions delivered to [cursorCallback]. *)
Definition cursor_all (moves : list (F * F)) (c : Camera F) : Camera F :=
  fold_left (fun c m => cursorCallback c (fst m) (snd m)) moves c.

End Events.

(** No event of the trace is a button press. *)
Definition no_press {F : Type} (e : Event F) : Prop :=
  match e with
  | MouseButton _ action _ => action <> GLFW_PRESS
  | _ => True
  end.

(** Every frame time of the trace lies in [0, 1]. *)
Definition unit_frame (e : Event float) : bool :=
  match e with
  | Frame deltaTime _ _ => ((0 <=? deltaTime) && (deltaTime <=? 1))%float
  | _ => true
  end.

(** * Properties *)

(** ** Integer facts *)

Lemma wrap32_small z : Int.in_range z -> Int.wrap32 z = z.
Proof.
  unfold Int.in_range, Int.wrap32; intros Hz.
  rewrite Z.mod_small by lia. lia.
Qed.

Lemma byte_val_range b : 0 <= byte_val b < 256.
Proof.
  unfold byte_val. pose proof (Byte.to_N_bounded b). lia.
Qed.

Lemma char_of_byte_range cs b : -128 <= char_of_byte cs b < 256.
Proof.
  unfold char_of_byte. pose proof (byte_val_range b).
  destruct cs; simpl; [destruct (128 <=? byte_val b) eqn:E|]; lia.
Qed.

Lemma char_of_byte_unsigned b : char_of_byte false b = byte_val b.
Proof. reflexivity. Qed.

(** A plain [char] keeps the byte modulo 256. *)
Lemma char_of_byte_mod cs b : char_of_byte cs b mod 256 = byte_val b.
Proof.
  unfold char_of_byte. pose proof (byte_val_range b) as Hb.
  destruct cs; simpl; [destruct (128 <=? byte_val b) eqn:E|].
  - replace (byte_val b - 256) with (byte_val b + (-1) * 256) by lia.
    rewrite Z.mod_add by lia. apply Z.mod_small; lia.
  - apply Z.mod_small; lia.
  - apply Z.mod_small; lia.
Qed.

(** No step of the packing leaves the [int] range. *)
Lemma pack_value c0 c1 c2 :
  -128 <= c0 < 256 -> -128 <= c1 < 256 -> -128 <= c2 < 256 ->
  pack c0 c1 c2 = c2 * 65536 + c1 * 256 + c0.
Proof.
  intros H0 H1 H2. unfold pack, Int.add, Int.shl.
  rewrite !Z.shiftl_mul_pow2 by lia.
  change (2 ^ 8) with 256.
  rewrite (wrap32_small (c2 * 256)) by (unfold Int.in_range; lia).
  rewrite (wrap32_small (c2 * 256 + c1)) by (unfold Int.in_range; lia).
  rewrite (wrap32_small ((c2 * 256 + c1) * 256)) by (unfold Int.in_range; lia).
  rewrite wrap32_small by (unfold Int.in_range; lia).
  lia.
Qed.

Lemma lor_shift_add a b n :
  0 <= n -> 0 <= b < 2 ^ n -> Z.lor (Z.shiftl a n) b = a * 2 ^ n + b.
Proof.
  intros Hn Hb.
  rewrite <- Z.shiftl_mul_pow2 by lia.
  rewrite <- Z.add_lor_land.
  assert (E : Z.land (Z.shiftl a n) b = 0).
  { apply Z.bits_inj'; intros m Hm.
    rewrite Z.land_spec, Z.bits_0.
    destruct (Z.lt_ge_cases m n) as [Hlt|Hge].
    - rewrite Z.shiftl_spec_low by lia. reflexivity.
    - destruct (Z.eq_dec b 0) as [->|Hb0].
      + rewrite Z.bits_0. apply andb_false_r.
      + rewrite (Z.bits_above_log2 b m); [apply andb_false_r|lia|].
        apply Z.log2_lt_pow2; [lia|].
        apply Z.lt_le_trans with (2 ^ n); [lia|].
        apply Z.pow_le_mono_r; lia. }
  rewrite E. lia.
Qed.

Lemma spec_key_value b0 b1 b2 :
  spec_key b0 b1 b2 = byte_val b2 * 65536 + byte_val b1 * 256 + byte_val b0.
Proof.
  unfold spec_key.
  pose proof (byte_val_range b0). pose proof (byte_val_range b1).
  pose proof (byte_val_range b2).
  replace (Z.shiftl (byte_val b2) 16)
    with (Z.shiftl (Z.shiftl (byte_val b2) 8) 8)
    by (rewrite Z.shiftl_shiftl by lia; reflexivity).
  rewrite <- Z.shiftl_lor.
  rewrite (lor_shift_add (byte_val b2) (byte_val b1) 8) by lia.
  rewrite lor_shift_add by lia.
  change (2 ^ 8) with 256. lia.
Qed.

Lemma unpack_x_div packed : unpack_x packed = (packed / 65536) mod 256.
Proof.
  unfold unpack_x, Int.shr. change 255 with (Z.ones 8).
  rewrite Z.land_ones, Z.shiftr_div_pow2 by lia. reflexivity.
Qed.

Lemma unpack_y_div packed : unpack_y packed = (packed / 256) mod 256.
Proof.
  unfold unpack_y, Int.shr. change 255 with (Z.ones 8).
  rewrite Z.land_ones, Z.shiftr_div_pow2 by lia. reflexivity.
Qed.

Lemma unpack_z_mod packed : unpack_z packed = packed mod 256.
Proof.
  unfold unpack_z. change 255 with (Z.ones 8).
  rewrite Z.land_ones by lia. reflexivity.
Qed.

Lemma unpack_range packed :
  0 <= unpack_x packed < 256 /\ 0 <= unpack_y packed < 256
  /\ 0 <= unpack_z packed < 256.
Proof.
  rewrite unpack_x_div, unpack_y_div, unpack_z_mod.
  repeat split; apply Z.mod_pos_bound; lia.
Qed.

(** Unpacking inverts the packing of the specification. *)
Lemma unpack_spec_key b0 b1 b2 :
  unpack_x (spec_key b0 b1 b2) = byte_val b2
  /\ unpack_y (spec_key b0 b1 b2) = byte_val b1
  /\ unpack_z (spec_key b0 b1 b2) = byte_val b0.
Proof.
  rewrite unpack_x_div, unpack_y_div, unpack_z_mod, spec_key_value.
  pose proof (byte_val_range b0). pose proof (byte_val_range b1).
  pose proof (byte_val_range b2).
  repeat split.
  - replace (byte_val b2 * 65536 + byte_val b1 * 256 + byte_val b0)
      with (byte_val b1 * 256 + byte_val b0 + byte_val b2 * 65536) by lia.
    rewrite Z.div_add by lia. rewrite (Z.div_small (_ + _)) by lia.
    apply Z.mod_small; lia.
  - replace (byte_val b2 * 65536 + byte_val b1 * 256 + byte_val b0)
      with (byte_val b0 + (byte_val b2 * 256 + byte_val b1) * 256) by lia.
    rewrite Z.div_add by lia. rewrite (Z.div_small (byte_val b0)) by lia.
    rewrite Z.add_0_l, Z.add_comm, Z.mod_add by lia.
    apply Z.mod_small; lia.
  - replace (byte_val b2 * 65536 + byte_val b1 * 256 + byte_val b0)
      with (byte_val b0 + (byte_val b2 * 256 + byte_val b1) * 256) by lia.
    rewrite Z.mod_add by lia. apply Z.mod_small; lia.
Qed.

(** With an unsigned plain [char] the loop body computes the key of the
    specification. *)
Lemma pack_unsigned b0 b1 b2 :
  pack (char_of_byte false b0) (char_of_byte false b1) (char_of_byte false b2)
  = spec_key b0 b1 b2.
Proof.
  rewrite spec_key_value, !char_of_byte_unsigned.
  pose proof (byte_val_range b0). pose proof (byte_val_range b1).
  pose proof (byte_val_range b2).
  apply pack_value; lia.
Qed.

Lemma byte_val_inj b b' : byte_val b = byte_val b' -> b = b'.
Proof.
  unfold byte_val; intros E. apply N2Z.inj in E.
  pose proof (Byte.of_to_N b) as Hb. pose proof (Byte.of_to_N b') as Hb'.
  rewrite E in Hb. congruence.
Qed.

Lemma char_of_byte_inj cs b b' : char_of_byte cs b = char_of_byte cs b' -> b = b'.
Proof.
  intros E. apply byte_val_inj.
  rewrite <- (char_of_byte_mod cs b), <- (char_of_byte_mod cs b'), E.
  reflexivity.
Qed.

(** The code's own keys: plain [char] values of the same signedness differ
    by less than 256, so distinct triplets get distinct keys. *)
Lemma pack_injective cs b0 b1 b2 b0' b1' b2' :
  pack (char_of_byte cs b0) (char_of_byte cs b1) (char_of_byte cs b2)
  = pack (char_of_byte cs b0') (char_of_byte cs b1') (char_of_byte cs b2') ->
  b0 = b0' /\ b1 = b1' /\ b2 = b2'.
Proof.
  rewrite !pack_value by apply char_of_byte_range.
  intros E.
  assert (R : forall b, (if cs then -128 else 0) <= char_of_byte cs b
                        < (if cs then 128 else 256)).
  { intros b. unfold char_of_byte. pose proof (byte_val_range b).
    destruct cs; simpl; [destruct (128 <=? byte_val b) eqn:E'|]; lia. }
  pose proof (R b0). pose proof (R b1). pose proof (R b2).
  pose proof (R b0'). pose proof (R b1'). pose proof (R b2').
  repeat split; apply (char_of_byte_inj cs); destruct cs; lia.
Qed.

(** ** Lists taken three at a time *)

Lemma list_ind3 {A : Type} (P : list A -> Prop) :
  P [] -> (forall a, P [a]) -> (forall a b, P [a; b]) ->
  (forall a b c l, P l -> P (a :: b :: c :: l)) ->
  forall l, P l.
Proof.
  intros H0 H1 H2 H3.
  fix IH 1.
  intros [|a [|b [|c l]]].
  - exact H0.
  - apply H1.
  - apply H2.
  - apply H3, IH.
Qed.

Lemma pack_loop_length buffer :
  Z.of_nat (length (pack_loop buffer)) = Z.of_nat (length buffer) / 3.
Proof.
  induction buffer as [| a | a b | a b c l IH] using list_ind3;
    try reflexivity.
  cbn [pack_loop length]. rewrite !Nat2Z.inj_succ, IH.
  replace (Z.succ (Z.succ (Z.succ (Z.of_nat (length l)))))
    with (Z.of_nat (length l) + 1 * 3) by lia.
  rewrite Z.div_add by lia. lia.
Qed.

Lemma pack_loop_app_short buffer extra :
  (length buffer mod 3 = 0)%nat -> (length extra < 3)%nat ->
  pack_loop (buffer ++ extra) = pack_loop buffer.
Proof.
  intros Hm He. apply Nat.Div0.mod_divides in Hm as [n Hn].
  revert n Hn.
  induction buffer as [| a | a b | a b c l IH] using list_ind3;
    intros n Hn; cbn [length] in Hn.
  - destruct extra as [|e0 [|e1 [|e2 extra]]]; cbn in *; try reflexivity; lia.
  - lia.
  - lia.
  - cbn [app pack_loop]. f_equal. apply (IH (n - 1)%nat). lia.
Qed.

(** ** The walk *)

Lemma incr_back_last points p :
  incr_back (points ++ [p]) = points ++ [count_up p].
Proof.
  induction points as [|q points IH]; [reflexivity|].
  cbn [app incr_back]. rewrite IH.
  destruct points; reflexivity.
Qed.

Lemma incr_back_position points :
  map position (incr_back points) = map position points.
Proof.
  induction points as [|p [|q points] IH]; try reflexivity.
  change (incr_back (p :: q :: points)) with (p :: incr_back (q :: points)).
  cbn [map]. f_equal. exact IH.
Qed.

(** The walk appends one point per emitted key and leaves every position
    as it was emplaced. *)
Lemma walk_positions uninit sortBuffer : forall prev points,
  map position (walk uninit prev sortBuffer points)
  = map position points ++ map spherical (emitted prev sortBuffer).
Proof.
  induction sortBuffer as [|packed rest IH]; intros prev points; cbn [walk emitted].
  - cbn [map]. rewrite app_nil_r. reflexivity.
  - rewrite IH. destruct (is_duplicate prev packed).
    + rewrite incr_back_position. reflexivity.
    + rewrite map_app. cbn [map]. rewrite <- app_assoc. reflexivity.
Qed.

Lemma build_positions cs uninit bytes :
  map position (build cs uninit bytes)
  = map spherical (emitted None (sort_keys cs bytes)).
Proof. unfold build. rewrite walk_positions. reflexivity. Qed.

Lemma build_length cs uninit bytes :
  length (build cs uninit bytes) = length (emitted None (sort_keys cs bytes)).
Proof.
  rewrite <- (length_map position), build_positions, length_map. reflexivity.
Qed.

(** On a sorted buffer the emitted keys increase strictly. *)
Lemma emitted_increasing sortBuffer : forall prev,
  StronglySorted Z.le sortBuffer ->
  (forall q, prev = Some q -> Forall (Z.le q) sortBuffer) ->
  StronglySorted Z.lt (emitted prev sortBuffer)
  /\ (forall q, prev = Some q -> Forall (Z.lt q) (emitted prev sortBuffer)).
Proof.
  induction sortBuffer as [|packed rest IH]; intros prev Hs Hp; cbn [emitted].
  - split; [constructor|]. intros; constructor.
  - inversion Hs as [|? ? Hs' Hle]; subst.
    destruct (IH (Some packed) Hs') as [IHs IHp].
    { intros q [= <-]. exact Hle. }
    specialize (IHp packed eq_refl).
    destruct prev as [q|]; cbn [is_duplicate].
    + specialize (Hp q eq_refl). inversion Hp as [|? ? Hq _]; subst.
      destruct (Z.eqb_spec packed q) as [->|Hne].
      * split; [exact IHs|]. intros q' [= <-]. exact IHp.
      * split; [constructor; assumption|].
        intros q' [= <-]. constructor; [lia|].
        eapply Forall_impl; [|exact IHp]. cbn; intros; lia.
    + split; [constructor; assumption|]. intros q [=].
Qed.

(** The emitted keys are the keys of the buffer. *)
Lemma emitted_In sortBuffer : forall prev k,
  In k (emitted prev sortBuffer) \/ prev = Some k
  <-> In k sortBuffer \/ prev = Some k.
Proof.
  induction sortBuffer as [|packed rest IH]; intros prev k; cbn [emitted In].
  - tauto.
  - specialize (IH (Some packed) k).
    destruct prev as [q|]; cbn [is_duplicate].
    + destruct (Z.eqb_spec packed q) as [->|Hne]; cbn [In];
        split; intros H; intuition congruence.
    + cbn [In]. split; intros H; intuition congruence.
Qed.

Lemma sort_keys_sorted cs bytes : StronglySorted Z.le (sort_keys cs bytes).
Proof.
  unfold sort_keys.
  assert (T : Transitive (fun a b => is_true (IntOrder.leb a b))).
  { intros a b c. unfold IntOrder.leb, is_true. rewrite !Z.leb_le. lia. }
  pose proof (IntSort.StronglySorted_sort
                (pack_loop (map (char_of_byte cs) bytes)) T) as S.
  induction S as [|a l S IH Hf]; constructor; [assumption|].
  eapply Forall_impl; [|exact Hf].
  intros b Hb. apply Z.leb_le. exact Hb.
Qed.

Lemma sort_keys_perm cs bytes :
  Permutation (pack_loop (map (char_of_byte cs) bytes)) (sort_keys cs bytes).
Proof. apply IntSort.Permuted_sort. Qed.

Lemma sort_keys_length cs bytes :
  Z.of_nat (length (sort_keys cs bytes)) = Z.of_nat (length bytes) / 3.
Proof.
  rewrite <- (Permutation_length (sort_keys_perm cs bytes)).
  rewrite pack_loop_length, length_map. reflexivity.
Qed.

(** Emitted points have pairwise distinct keys, in ascending order. *)
Lemma build_keys_increasing cs bytes :
  StronglySorted Z.lt (emitted None (sort_keys cs bytes)).
Proof.
  apply (emitted_increasing (sort_keys cs bytes) None).
  - apply sort_keys_sorted.
  - intros q [=].
Qed.

Lemma increasing_NoDup l : StronglySorted Z.lt l -> NoDup l.
Proof.
  induction 1 as [|a l S IH Hf]; constructor; [|exact IH].
  intros Hin. rewrite Forall_forall in Hf. specialize (Hf a Hin). lia.
Qed.

Lemma build_keys_NoDup cs bytes : NoDup (emitted None (sort_keys cs bytes)).
Proof. apply increasing_NoDup, build_keys_increasing. Qed.

(** A key is emitted exactly when some complete triplet packs to it. *)
Lemma build_keys_In cs bytes k :
  In k (emitted None (sort_keys cs bytes))
  <-> In k (pack_loop (map (char_of_byte cs) bytes)).
Proof.
  pose proof (emitted_In (sort_keys cs bytes) None k) as E.
  split; intros Hin.
  - apply (Permutation_in k (Permutation_sym (sort_keys_perm cs bytes))).
    destruct E as [E _]. destruct E as [E|E]; [auto|exact E|discriminate].
  - apply (Permutation_in k (sort_keys_perm cs bytes)) in Hin.
    destruct E as [_ E]. destruct E as [E|E]; [auto|exact E|discriminate].
Qed.

(** ** Counting with counters that start at zero *)

Lemma sum_counts_app l1 l2 :
  sum_counts (l1 ++ l2) = sum_counts l1 + sum_counts l2.
Proof.
  induction l1 as [|p l1 IH]; cbn [app sum_counts fold_right]; [reflexivity|].
  fold (sum_counts (l1 ++ l2)). fold (sum_counts l1). lia.
Qed.

Lemma sum_counts_nonneg l :
  Forall (fun p => 0 <= count p) l -> 0 <= sum_counts l.
Proof.
  induction 1 as [|p l Hp Hl IH]; cbn [sum_counts fold_right]; [lia|].
  fold (sum_counts l). lia.
Qed.

Lemma walk_counts_zero sortBuffer : forall prev points m,
  (prev <> None -> points <> []) ->
  Forall (fun p => 0 <= count p) points ->
  sum_counts points + Z.of_nat (length points) = m ->
  m + Z.of_nat (length sortBuffer) < 2 ^ 31 ->
  Forall (fun p => 0 <= count p) (walk (fun _ => 0) prev sortBuffer points)
  /\ sum_counts (walk (fun _ => 0) prev sortBuffer points)
     + Z.of_nat (length (walk (fun _ => 0) prev sortBuffer points))
     = m + Z.of_nat (length sortBuffer).
Proof.
  induction sortBuffer as [|packed rest IH]; intros prev points m Hne Hpos Hm Hb;
    cbn [walk length].
  - split; [assumption|]. cbn. lia.
  - cbn [length] in Hb. rewrite Nat2Z.inj_succ in Hb |- *.
    destruct (is_duplicate prev packed) eqn:D.
    + assert (Hprev : prev <> None) by (destruct prev; [discriminate|discriminate]).
      destruct (exists_last (Hne Hprev)) as [l [p ->]].
      rewrite incr_back_last.
      apply Forall_app in Hpos as [Hl Hp]. apply Forall_inv in Hp.
      pose proof (sum_counts_nonneg l Hl) as Hs.
      rewrite sum_counts_app, length_app, Nat2Z.inj_add in Hm.
      cbn [sum_counts fold_right length] in Hm.
      assert (Hc : count (count_up p) = count p + 1).
      { cbn [count_up count]. unfold Int.add. apply wrap32_small.
        unfold Int.in_range. lia. }
      destruct (IH (Some packed) (l ++ [count_up p]) (m + 1)) as [IH1 IH2].
      * intros _ E. destruct l; discriminate.
      * apply Forall_app; split; [assumption|]. constructor; [lia|constructor].
      * rewrite sum_counts_app, length_app, Nat2Z.inj_add.
        cbn [sum_counts fold_right length]. lia.
      * lia.
      * split; [exact IH1|]. lia.
    + destruct (IH (Some packed) (points ++ [point_of 0 packed]) (m + 1))
        as [IH1 IH2].
      * intros _ E. destruct points; discriminate.
      * apply Forall_app; split; [assumption|].
        constructor; [cbn; lia|constructor].
      * rewrite sum_counts_app, length_app, Nat2Z.inj_add.
        cbn [sum_counts fold_right length point_of new_Point count]. lia.
      * lia.
      * split; [exact IH1|]. lia.
Qed.

(** With zeroed counters and a file below 2 GiB, counters and points add
    up to the number of complete triplets. *)
Lemma build_counts_zero cs bytes :
  Z.of_nat (length bytes) < 2 ^ 31 ->
  sum_counts (build cs (fun _ => 0) bytes)
  + Z.of_nat (length (build cs (fun _ => 0) bytes))
  = Z.of_nat (length bytes) / 3.
Proof.
  intros Hb. unfold build.
  pose proof (sort_keys_length cs bytes) as L.
  destruct (walk_counts_zero (sort_keys cs bytes) None [] 0) as [_ E].
  - intros C; contradiction.
  - constructor.
  - reflexivity.
  - rewrite L. assert (Z.of_nat (length bytes) / 3 <= Z.of_nat (length bytes)).
    { apply Z.div_le_upper_bound; lia. }
    lia.
  - rewrite E, L. lia.
Qed.

(** ** Scrolling *)

Section Scroll.

Local Open Scope float_scope.

Lemma scrollCallback_floor (c : Camera float) shift xOffset yOffset :
  (zoomTarget (scrollCallback c shift xOffset yOffset) <? f_tenth) = false.
Proof.
  cbn [scrollCallback zoomTarget].
  destruct (f_lt _ f_tenth) eqn:E.
  - reflexivity.
  - exact E.
Qed.

Lemma scroll_all_floor events : forall c : Camera float,
  (zoomTarget c <? f_tenth) = false ->
  (zoomTarget (scroll_all events c) <? f_tenth) = false.
Proof.
  induction events as [|e events IH]; intros c Hc; cbn [scroll_all fold_left].
  - exact Hc.
  - apply IH, scrollCallback_floor.
Qed.

End Scroll.

(** ** Damping in the executed arithmetic *)

Section Damping.

Context {F : Type} `{Arith F}.

Lemma frames_S n (deltaTime : F) (c : Camera F) :
  frames (S n) deltaTime c = advance deltaTime (frames n deltaTime c).
Proof. reflexivity. Qed.

Lemma frames_add n m (deltaTime : F) (c : Camera F) :
  frames (n + m) deltaTime c = frames n deltaTime (frames m deltaTime c).
Proof.
  induction n as [|n IH]; [reflexivity|].
  cbn [Nat.add]. rewrite !frames_S, IH. reflexivity.
Qed.

Lemma frames_targets n (deltaTime : F) (c : Camera F) :
  zoomTarget (frames n deltaTime c) = zoomTarget c
  /\ targetRotX (frames n deltaTime c) = targetRotX c
  /\ targetRotY (frames n deltaTime c) = targetRotY c.
Proof.
  induction n as [|n IH]; [repeat split|].
  rewrite frames_S. cbn [advance zoomTarget targetRotX targetRotY]. exact IH.
Qed.

(** A camera that one frame leaves as it is stays as it is. *)
Lemma frames_fixed n (deltaTime : F) (c : Camera F) :
  advance deltaTime c = c -> frames n deltaTime c = c.
Proof.
  intros E. induction n as [|n IH]; [reflexivity|].
  rewrite frames_S, IH. exact E.
Qed.

End Damping.

Section Binary64.

Local Open Scope float_scope.

Lemma Prim2SF_inj (a b : float) : Prim2SF a = Prim2SF b -> a = b.
Proof.
  intros E. rewrite <- (SF2Prim_Prim2SF a), <- (SF2Prim_Prim2SF b), E.
  reflexivity.
Qed.

Lemma proper_target_finite t : proper_target t = true -> finite64 t = true.
Proof.
  unfold proper_target, finite64.
  destruct (Prim2SF t) as [s|s| |s m e]; try discriminate; auto.
Qed.

(** [t - t] is the positive zero for every finite [t]. *)
Lemma sub_self t : finite64 t = true -> Prim2SF (t - t) = S754_zero false.
Proof.
  unfold finite64. rewrite sub_spec. unfold SF64sub, SFsub.
  destruct (Prim2SF t) as [s|s| |s m e]; try discriminate; intros _.
  - destruct s; reflexivity.
  - rewrite Z.sub_diag. reflexivity.
Qed.

Lemma mul_zero_l z d s :
  Prim2SF z = S754_zero s -> finite64 d = true ->
  exists s', Prim2SF (z * d) = S754_zero s'.
Proof.
  unfold finite64. intros Ez. rewrite mul_spec, Ez. unfold SF64mul, SFmul.
  destruct (Prim2SF d) as [sd|sd| |sd m e]; try discriminate; intros _;
    eexists; reflexivity.
Qed.

Lemma add_zero_r t z s :
  proper_target t = true -> Prim2SF z = S754_zero s -> t + z = t.
Proof.
  unfold proper_target. intros Ht Ez. apply Prim2SF_inj.
  rewrite add_spec, Ez. unfold SF64add, SFadd.
  destruct (Prim2SF t) as [st|st| |st m e]; try discriminate.
  - destruct st; [discriminate|]. destruct s; reflexivity.
  - reflexivity.
Qed.

Lemma single_zero z s : Prim2SF z = S754_zero s -> single z = z.
Proof. unfold single. intros ->. reflexivity. Qed.

(** The update of a [double] that is on its target. *)
Lemma rest64 t d :
  finite64 d = true -> proper_target t = true -> t + (t - t) * d = t.
Proof.
  intros Hd Ht.
  destruct (mul_zero_l (t - t) d false (sub_self t (proper_target_finite t Ht)) Hd)
    as [s' E].
  exact (add_zero_r t _ s' Ht E).
Qed.

(** The update of a [float] that is on its target. *)
Lemma rest32 t d :
  finite64 d = true -> proper_target t = true -> single t = t ->
  single (t + single (t - t) * d) = t.
Proof.
  intros Hd Ht Hs.
  rewrite (single_zero _ _ (sub_self t (proper_target_finite t Ht))).
  rewrite rest64 by assumption. exact Hs.
Qed.

Lemma handle_zoomTarget_floor (c : Camera float) (e : Event float) :
  (zoomTarget c <? f_tenth) = false ->
  (zoomTarget (handle c e) <? f_tenth) = false.
Proof.
  intros Hc. destruct e as [dt w h | mx my | b a m | s xo yo]; cbn [handle].
  - exact Hc.
  - exact Hc.
  - exact Hc.
  - apply scrollCallback_floor.
Qed.

End Binary64.

(** ** Spherical positions *)

Section Sphere.

Local Open Scope R_scope.

Lemma radius_range packed : 0 <= radius packed <= 1.
Proof.
  unfold radius, z_norm.
  destruct (unpack_range packed) as (_ & _ & Hz).
  assert (H0 : IZR 0 <= IZR (unpack_z packed)) by (apply IZR_le; lia).
  assert (H1 : IZR (unpack_z packed) <= IZR 255) by (apply IZR_le; lia).
  lra.
Qed.

Lemma spherical_norm2 p packed :
  position p = spherical packed ->
  norm2 p = radius packed * radius packed.
Proof.
  unfold position, spherical, norm2; cbn [point_of new_Point x y z position].
  intros [= -> -> ->].
  pose proof (sin2_cos2 (xRot packed)) as Hx.
  pose proof (sin2_cos2 (yRot packed)) as Hy.
  unfold Rsqr in Hx, Hy.
  set (r := radius packed) in *.
  set (sx := sin (xRot packed)) in *. set (cx := cos (xRot packed)) in *.
  set (sy := sin (yRot packed)) in *. set (cy := cos (yRot packed)) in *.
  replace (r * sx * cy * (r * sx * cy) + r * sx * sy * (r * sx * sy)
           + r * cx * (r * cx))
    with (r * r * (sx * sx * (sy * sy + cy * cy) + cx * cx)) by ring.
  rewrite Hy, Rmult_1_r, Hx. ring.
Qed.

Lemma spherical_in_ball p packed :
  position p = spherical packed -> norm2 p <= 1.
Proof.
  intros E. rewrite (spherical_norm2 p packed E).
  pose proof (radius_range packed). nra.
Qed.

(** Every point of [build] sits where the walk emplaced it for some key. *)
Lemma positions_from_keys points : forall keys,
  map position points = map spherical keys ->
  Forall (fun p => exists packed, In packed keys
                                  /\ position p = spherical packed) points.
Proof.
  induction points as [|p points IH]; intros [|k keys] E;
    try discriminate; constructor.
  - exists k. cbn [map] in E. split; [left; reflexivity|congruence].
  - cbn [map] in E. assert (E' : map position points = map spherical keys)
      by congruence.
    eapply Forall_impl; [|exact (IH keys E')].
    intros q (packed & Hin & Hq). exists packed. split; [right|]; assumption.
Qed.

Lemma spherical_zero : spherical 0 = (0, 0, 0).
Proof.
  unfold spherical, position; cbn [point_of new_Point x y z].
  assert (E : radius 0 = 0).
  { unfold radius, z_norm. change (unpack_z 0) with 0%Z. lra. }
  rewrite E, !Rmult_0_l. reflexivity.
Qed.

End Sphere.

(** ** The two readings of plain [char] *)

(** With an unsigned plain [char], [sortBuffer] holds the keys of the
    specification in ascending order. *)
Lemma sort_keys_unsigned bytes :
  sort_keys false bytes = IntSort.sort (spec_keys bytes).
Proof.
  unfold sort_keys. f_equal.
  induction bytes as [| a | a b | a b c l IH] using list_ind3;
    try reflexivity.
  cbn [map pack_loop spec_keys]. rewrite IH, pack_unsigned. reflexivity.
Qed.

(** With zeroed counters the scenario input gives the counters 1 and 0,
    whichever way plain [char] is read. *)
Lemma scenario_zeroed cs :
  exists p0 pF,
    Permutation (build cs (fun _ => 0) scenario) [p0; pF]
    /\ count p0 = 1 /\ position p0 = (0, 0, 0)%R /\ count pF = 0.
Proof.
  exists (count_up (point_of 0 0)).
  destruct cs.
  - exists (point_of 0 (-65793)). split; [apply perm_swap|].
    repeat split. exact spherical_zero.
  - exists (point_of 0 16777215). split; [apply Permutation_refl|].
    repeat split. exact spherical_zero.
Qed.

(** * The claims *)

(** C1 (the code departs from it where plain [char] is signed): the file
    [FF 00 00] is packed to the key [-1], not to
    [(0 << 16) | (0 << 8) | 0xFF = 255]; the byte [0xFF] is sign-extended
    and borrows from the two bytes above it, so that unpacking the key
    yields the components [(255, 255, 255)] and the point is emplaced for
    the key [-1].  On the scenario input the triplet [FF FF FF] gets the
    negative key [-65793] and is emitted before [00 00 00], while the keys
    of the specification put it last. *)
Theorem pack_signed_char_key : forall uninit,
  sort_keys true [xff; x00; x00] = [-1]
  /\ spec_key xff x00 x00 = 255
  /\ (unpack_x (-1), unpack_y (-1), unpack_z (-1)) = (255, 255, 255)
  /\ build true uninit [xff; x00; x00] = [point_of (uninit 0%nat) (-1)]
  /\ emitted None (sort_keys true scenario) = [-65793; 0]
  /\ emitted None (IntSort.sort (spec_keys scenario)) = [0; 16777215].
Proof. intros uninit. repeat apply conj; reflexivity. Qed.

(** C2 (the code departs from it): the point emplaced for a file of one
    triplet carries in [count] the value its allocation held, which the
    constructor does not overwrite; with a residue of 7 the counters plus
    the number of points give 8, while the file has one complete triplet. *)
Theorem count_starts_from_residue : forall cs uninit b0 b1 b2,
  build cs uninit [b0; b1; b2]
  = [point_of (uninit 0%nat)
       (pack (char_of_byte cs b0) (char_of_byte cs b1) (char_of_byte cs b2))]
  /\ Forall (fun p => count p = uninit 0%nat) (build cs uninit [b0; b1; b2])
  /\ sum_counts (build cs (fun _ => 7) [x00; x00; x00])
     + Z.of_nat (length (build cs (fun _ => 7) [x00; x00; x00])) = 8
  /\ Z.of_nat (length [x00; x00; x00]) / 3 = 1.
Proof.
  intros cs uninit b0 b1 b2.
  assert (E : forall u c0 c1 c2,
             build cs u [c0; c1; c2]
             = [point_of (u 0%nat)
                  (pack (char_of_byte cs c0) (char_of_byte cs c1)
                        (char_of_byte cs c2))]) by reflexivity.
  split; [apply E|]. split.
  - rewrite E. constructor; [reflexivity|constructor].
  - rewrite E. split; reflexivity.
Qed.

(** C3 (the code departs from it): on the scenario input the walk emits
    two points, the one of key 0 at position (0, 0, 0); their counters are
    the allocation residue plus one and the residue itself, 8 and 7 for a
    residue of 7, not 1 and 0. *)
Theorem scenario_counts_residue : forall uninit,
  build true uninit scenario
  = [point_of (uninit 0%nat) (-65793); count_up (point_of (uninit 1%nat) 0)]
  /\ build false uninit scenario
    = [count_up (point_of (uninit 0%nat) 0); point_of (uninit 1%nat) 16777215]
  /\ position (count_up (point_of (uninit 1%nat) 0)) = (0, 0, 0)%R
  /\ position (count_up (point_of (uninit 0%nat) 0)) = (0, 0, 0)%R
  /\ count (count_up (point_of 7 0)) = 8
  /\ count (point_of 7 (-65793)) = 7
  /\ count (point_of 7 16777215) = 7.
Proof.
  intros uninit.
  assert (P : forall r, position (count_up (point_of r 0)) = (0, 0, 0)%R).
  { intros r. exact spherical_zero. }
  repeat split; try apply P.
Qed.



(** C5: starting from [zoomTarget = 1], a scroll with the fast modifier
    adds its offset to [zoomTarget] and one without adds the offset divided
    by 25; the sum is then replaced by [max(sum, 0.1)]; a scroll of 25
    without the modifier adds exactly 1.0 (from 1 to 2); and after any
    sequence of scroll events [zoomTarget] is not below 0.1.  The
    arithmetic is that of [double]. *)
Theorem scroll_zoom_floor :
  zoomTarget (initial (F := float)) = 1%float
  /\ (forall (c : Camera float) xOffset yOffset,
        zoomTarget (scrollCallback c true xOffset yOffset)
        = f_max (zoomTarget c + yOffset)%float f_tenth
        /\ zoomTarget (scrollCallback c false xOffset yOffset)
           = f_max (zoomTarget c + yOffset / 25)%float f_tenth)
  /\ (forall (c : Camera float) xOffset,
        zoomTarget (scrollCallback c false xOffset 25%float)
        = f_max (zoomTarget c + 1)%float f_tenth)
  /\ zoomTarget (scrollCallback initial false 0%float 25%float) = 2%float
  /\ (forall events : list (bool * float),
        (zoomTarget (scroll_all events initial) <? f_tenth)%float = false).
Proof.
  split; [reflexivity|]. split; [|split; [|split]].
  - intros c xOffset yOffset. split; reflexivity.
  - intros c xOffset. reflexivity.
  - reflexivity.
  - intros events. apply scroll_all_floor. reflexivity.
Qed.








(** C9: [mouseButtonCallback] never looks at the button: a press of any
    button puts the controller in [Dragging], a release of any button puts
    it in [Idle], also when another button started the drag, and the
    resulting state is the same for every button. *)
Theorem drag_ignores_button :
  forall (F : Type) (c : Camera F) (button button' mods mods' action : Z),
  drag_state (mouseButtonCallback c button GLFW_PRESS mods) = Dragging
  /\ drag_state (mouseButtonCallback c button GLFW_RELEASE mods) = Idle
  /\ drag_state
       (mouseButtonCallback (mouseButtonCallback c button GLFW_PRESS mods)
          button' GLFW_RELEASE mods') = Idle
  /\ mouseButtonCallback c button action mods
     = mouseButtonCallback c button' action mods.
Proof. intros. repeat split. Qed.

(** C10: when the key [(b2 << 16) | (b1 << 8) | b0] is unpacked, its
    most-significant byte [b2] becomes [x_norm] and gives [xRot], its
    middle byte [b1] becomes [y_norm] and gives [yRot], and its
    least-significant byte [b0] becomes [z_norm], which is the radius. *)
Theorem decode_components : forall (b0 b1 b2 : byte) (residue : Z),
  x_norm (spec_key b0 b1 b2) = (IZR (byte_val b2) / 255)%R
  /\ y_norm (spec_key b0 b1 b2) = (IZR (byte_val b1) / 255)%R
  /\ z_norm (spec_key b0 b1 b2) = (IZR (byte_val b0) / 255)%R
  /\ xRot (spec_key b0 b1 b2) = (IZR (byte_val b2) / 255 * (2 * PIf))%R
  /\ yRot (spec_key b0 b1 b2) = (IZR (byte_val b1) / 255 * (2 * PIf))%R
  /\ radius (spec_key b0 b1 b2) = (IZR (byte_val b0) / 255)%R
  /\ on_sphere_of (spec_key b0 b1 b2) (point_of residue (spec_key b0 b1 b2)).
Proof.
  intros b0 b1 b2 residue.
  destruct (unpack_spec_key b0 b1 b2) as (Ex & Ey & Ez).
  unfold xRot, yRot, radius, x_norm, y_norm, z_norm.
  rewrite Ex, Ey, Ez. repeat split.
Qed.

(** * Further properties of the code *)

(** ** Packing and unpacking *)

Lemma pack_loop_triplets cs bytes :
  pack_loop (map (char_of_byte cs) bytes) = map (key_of cs) (triplets bytes).
Proof.
  induction bytes as [| a | a b | a b c l IH] using list_ind3;
    try reflexivity.
  cbn [map pack_loop triplets key_of]. rewrite IH. reflexivity.
Qed.

Lemma char_of_byte_cases cs b :
  (char_of_byte cs b = byte_val b /\ (cs = false \/ byte_val b < 128))
  \/ (char_of_byte cs b = byte_val b - 256 /\ cs = true /\ 128 <= byte_val b).
Proof.
  unfold char_of_byte. destruct cs; cbn [andb].
  - destruct (Z.leb_spec 128 (byte_val b)); [right|left]; auto.
  - left; auto.
Qed.

Lemma char_of_byte_range_by (cs : bool) b :
  (if cs then -128 else 0) <= char_of_byte cs b < (if cs then 128 else 256).
Proof.
  pose proof (byte_val_range b).
  destruct (char_of_byte_cases cs b) as [[-> [->|Hb]]|(-> & -> & Hb)];
    [lia|destruct cs; lia|lia].
Qed.

Lemma key_of_value cs b0 b1 b2 :
  key_of cs (b0, b1, b2)
  = char_of_byte cs b2 * 65536 + char_of_byte cs b1 * 256 + char_of_byte cs b0.
Proof. cbn [key_of]. apply pack_value; apply char_of_byte_range. Qed.

(** X1: the packing never leaves the range of [int]: the key of a triplet
    is [c2 * 65536 + c1 * 256 + c0] on the plain-[char] values of its
    bytes; it lies in [0, 2^24) when plain [char] is unsigned and in
    [-8421504, 8355711] when it is signed. *)
Theorem pack_exact_range : forall cs (b0 b1 b2 : byte),
  key_of cs (b0, b1, b2)
  = char_of_byte cs b2 * 65536 + char_of_byte cs b1 * 256 + char_of_byte cs b0
  /\ Int.in_range (key_of cs (b0, b1, b2))
  /\ (if cs then -8421504 <= key_of cs (b0, b1, b2) <= 8355711
      else 0 <= key_of cs (b0, b1, b2) < 2 ^ 24).
Proof.
  intros cs b0 b1 b2. rewrite key_of_value.
  pose proof (char_of_byte_range_by cs b0).
  pose proof (char_of_byte_range_by cs b1).
  pose proof (char_of_byte_range_by cs b2).
  split; [reflexivity|]. unfold Int.in_range. destruct cs; lia.
Qed.

(** X2: for either signedness of plain [char], two triplets with the same
    key are the same triplet. *)
Theorem key_of_injective : forall cs (t t' : byte * byte * byte),
  key_of cs t = key_of cs t' -> t = t'.
Proof.
  intros cs [[b0 b1] b2] [[b0' b1'] b2'] E.
  rewrite !key_of_value in E. rewrite <- !pack_value in E
    by apply char_of_byte_range.
  destruct (pack_injective cs b0 b1 b2 b0' b1' b2' E) as (E0 & E1 & E2).
  rewrite E0, E1, E2. reflexivity.
Qed.

Lemma key_of_injective_witness :
  key_of true (xff, x00, x80) = key_of true (xff, x00, x80)
  /\ (xff, x00, x80) = (xff, x00, x80).
Proof.
  split; [reflexivity|].
  apply (key_of_injective true (xff, x00, x80) (xff, x00, x80)).
  reflexivity.
Defined.

(** X3: unpacking gives back the three bytes of the triplet, the third
    byte as the x component and the first as the z component, when plain
    [char] is unsigned or every byte of the triplet is below 0x80. *)
Theorem unpack_pack_roundtrip : forall cs (b0 b1 b2 : byte),
  cs = false \/ (byte_val b0 < 128 /\ byte_val b1 < 128 /\ byte_val b2 < 128) ->
  unpack_x (key_of cs (b0, b1, b2)) = byte_val b2
  /\ unpack_y (key_of cs (b0, b1, b2)) = byte_val b1
  /\ unpack_z (key_of cs (b0, b1, b2)) = byte_val b0.
Proof.
  intros cs b0 b1 b2 Hc.
  assert (C : forall b, (cs = false \/ byte_val b < 128) ->
                        char_of_byte cs b = byte_val b).
  { intros b Hb. destruct (char_of_byte_cases cs b) as [[E _]|(_ & E & Hge)];
      [exact E|]. destruct Hb as [Hb|Hb]; [congruence|lia]. }
  assert (E : key_of cs (b0, b1, b2) = spec_key b0 b1 b2).
  { rewrite key_of_value. rewrite spec_key_value.
    rewrite !C by (destruct Hc as [Hc|Hc]; [left; exact Hc|right; apply Hc]).
    reflexivity. }
  rewrite E. apply unpack_spec_key.
Qed.

Lemma unpack_pack_roundtrip_witness :
  (true = false
   \/ (byte_val x41 < 128 /\ byte_val x7f < 128 /\ byte_val x00 < 128))
  /\ unpack_x (key_of true (x41, x7f, x00)) = byte_val x00
  /\ unpack_y (key_of true (x41, x7f, x00)) = byte_val x7f
  /\ unpack_z (key_of true (x41, x7f, x00)) = byte_val x41.
Proof.
  assert (H : true = false
              \/ (byte_val x41 < 128 /\ byte_val x7f < 128 /\ byte_val x00 < 128)).
  { right. repeat split. }
  split; [exact H|].
  exact (unpack_pack_roundtrip true x41 x7f x00 H).
Defined.

(** X4: with a signed plain [char] the z component is still the first
    byte, but a first byte of 0x80 or more takes one from the y component,
    and a second byte of 0x80 or more (or a second byte 0 under such a
    first byte) takes one from the x component, modulo 256. *)
Theorem unpack_pack_signed : forall b0 b1 b2 : byte,
  unpack_z (key_of true (b0, b1, b2)) = byte_val b0
  /\ unpack_y (key_of true (b0, b1, b2))
     = (byte_val b1 - (if 128 <=? byte_val b0 then 1 else 0)) mod 256
  /\ unpack_x (key_of true (b0, b1, b2))
     = (byte_val b2
        - (if (128 <=? byte_val b1)
              || ((byte_val b1 =? 0) && (128 <=? byte_val b0))
           then 1 else 0)) mod 256.
Proof.
  intros b0 b1 b2.
  rewrite key_of_value.
  rewrite unpack_x_div, unpack_y_div, unpack_z_mod.
  pose proof (byte_val_range b0). pose proof (byte_val_range b1).
  pose proof (byte_val_range b2).
  unfold char_of_byte; cbn [andb].
  destruct (Z.leb_spec 128 (byte_val b0)); destruct (Z.leb_spec 128 (byte_val b1));
    destruct (Z.leb_spec 128 (byte_val b2)); destruct (Z.eqb_spec (byte_val b1) 0);
    cbn [orb andb]; repeat split;
    Z.to_euclidean_division_equations; lia.
Qed.

(** ** The emitted points *)

Lemma sort_keys_perm_triplets cs bytes :
  Permutation (map (key_of cs) (triplets bytes)) (sort_keys cs bytes).
Proof. rewrite <- pack_loop_triplets. apply sort_keys_perm. Qed.

Lemma emitted_length prev sortBuffer :
  (length (emitted prev sortBuffer) <= length sortBuffer)%nat.
Proof.
  revert prev. induction sortBuffer as [|k rest IH]; intros prev; cbn [emitted length].
  - lia.
  - specialize (IH (Some k)). destruct (is_duplicate prev k); cbn [length]; lia.
Qed.

(** X5: the points are emitted in strictly ascending order of their keys,
    so no two points of the result share a key. *)
Theorem emitted_keys_ascending : forall cs uninit (bytes : list byte),
  StronglySorted Z.lt (emitted None (sort_keys cs bytes))
  /\ NoDup (emitted None (sort_keys cs bytes))
  /\ map position (build cs uninit bytes)
     = map spherical (emitted None (sort_keys cs bytes)).
Proof.
  intros cs uninit bytes. split; [apply build_keys_increasing|].
  split; [apply build_keys_NoDup|apply build_positions].
Qed.

(** X6: a key has a point exactly when some complete triplet of the file
    packs to it; bytes after the last complete triplet contribute nothing. *)
Theorem emitted_keys_of_triplets : forall cs (bytes : list byte) (k : Z),
  In k (emitted None (sort_keys cs bytes))
  <-> exists t, In t (triplets bytes) /\ key_of cs t = k.
Proof.
  intros cs bytes k. rewrite build_keys_In, pack_loop_triplets, in_map_iff.
  split; intros (t & H1 & H2); exists t; auto.
Qed.

Lemma build_nil_iff cs uninit (bytes : list byte) :
  build cs uninit bytes = [] <-> (length bytes < 3)%nat.
Proof.
  rewrite <- length_zero_iff_nil, build_length, length_zero_iff_nil.
  split.
  - intros E.
    destruct bytes as [|a [|b [|c l]]]; cbn [length]; try lia.
    exfalso.
    assert (Hin : In (key_of cs (a, b, c))
                     (emitted None (sort_keys cs (a :: b :: c :: l)))).
    { apply build_keys_In. rewrite pack_loop_triplets.
      apply in_map. left. reflexivity. }
    rewrite E in Hin. exact Hin.
  - intros Hl. destruct bytes as [|a [|b [|c l]]]; cbn [length] in Hl;
      try lia; reflexivity.
Qed.

(** X7: there are at most as many points as complete triplets, and there
    is no point at all exactly when the file has fewer than three bytes. *)
Theorem build_size : forall cs uninit (bytes : list byte),
  Z.of_nat (length (build cs uninit bytes)) <= Z.of_nat (length bytes) / 3
  /\ (build cs uninit bytes = [] <-> (length bytes < 3)%nat).
Proof.
  intros cs uninit bytes. split; [|apply build_nil_iff].
  rewrite build_length, <- (sort_keys_length cs).
  apply inj_le, emitted_length.
Qed.

(** ** Duplicate counting *)

Lemma occ_above (ks : list Z) (q k : Z) :
  Forall (Z.le k) ks -> q < k -> count_occ Z.eq_dec ks q = 0%nat.
Proof.
  intros Hf Hq. apply count_occ_not_In. intros Hin.
  rewrite Forall_forall in Hf. specialize (Hf q Hin). lia.
Qed.

Lemma walk_counts_occ sortBuffer : forall q l p,
  StronglySorted Z.le sortBuffer -> Forall (Z.le q) sortBuffer ->
  0 <= count p -> count p + Z.of_nat (length sortBuffer) < 2 ^ 31 ->
  map count (walk (fun _ => 0) (Some q) sortBuffer (l ++ [p]))
  = map count l
    ++ [count p + Z.of_nat (count_occ Z.eq_dec sortBuffer q)]
    ++ map (fun k => Z.of_nat (count_occ Z.eq_dec sortBuffer k) - 1)
           (emitted (Some q) sortBuffer).
Proof.
  induction sortBuffer as [|k rest IH]; intros q l p Hs Hq Hp Hb.
  - cbn [walk emitted count_occ map app]. rewrite map_app. cbn [map].
    rewrite Z.add_0_r. reflexivity.
  - inversion Hs as [|? ? Hs' Hk]. inversion Hq as [|? ? Hqk Hq'].
    cbn [length] in Hb. rewrite Nat2Z.inj_succ in Hb.
    destruct (emitted_increasing rest (Some k) Hs') as [_ Hgt].
    { intros q' [= <-]. exact Hk. }
    specialize (Hgt k eq_refl). rewrite Forall_forall in Hgt.
    cbn [walk emitted is_duplicate].
    destruct (Z.eqb_spec k q) as [E|Hne].
    + rewrite E in *. rewrite incr_back_last.
      assert (Hc : count (count_up p) = count p + 1).
      { cbn [count_up count]. unfold Int.add. apply wrap32_small.
        unfold Int.in_range. lia. }
      rewrite IH by (try assumption; lia).
      rewrite Hc, count_occ_cons_eq by reflexivity.
      rewrite Nat2Z.inj_succ. f_equal. f_equal; [f_equal; lia|].
      apply map_ext_in. intros k' Hin. specialize (Hgt k' Hin).
      rewrite count_occ_cons_neq by lia. reflexivity.
    + assert (Hlt : q < k) by lia.
      rewrite (IH k (l ++ [p]) (point_of 0 k)); try assumption;
        [|cbn; lia|cbn [point_of new_Point count]; lia].
      rewrite map_app. cbn [map point_of new_Point count app].
      rewrite <- app_assoc. cbn [app].
      rewrite (count_occ_cons_neq Z.eq_dec rest (x := k) (y := q)) by lia.
      rewrite (occ_above rest q k Hk Hlt).
      rewrite count_occ_cons_eq by reflexivity.
      rewrite Nat2Z.inj_succ.
      f_equal. f_equal; [f_equal; lia|]. f_equal; [lia|].
      apply map_ext_in. intros k' Hin. specialize (Hgt k' Hin).
      rewrite count_occ_cons_neq by lia. reflexivity.
Qed.

(** X8: when the counters start at zero and the file is below 2 GiB, the
    counter of every point is the number of complete triplets with its
    key, minus one. *)
Theorem count_is_occurrences : forall cs (bytes : list byte),
  Z.of_nat (length bytes) < 2 ^ 31 ->
  map count (build cs (fun _ => 0) bytes)
  = map (fun k =>
           Z.of_nat (count_occ Z.eq_dec (map (key_of cs) (triplets bytes)) k) - 1)
        (emitted None (sort_keys cs bytes)).
Proof.
  intros cs bytes Hb.
  pose proof (sort_keys_sorted cs bytes) as Hs.
  pose proof (sort_keys_length cs bytes) as Hl.
  pose proof (sort_keys_perm_triplets cs bytes) as Hp.
  assert (Ho : forall k, count_occ Z.eq_dec (map (key_of cs) (triplets bytes)) k
                         = count_occ Z.eq_dec (sort_keys cs bytes) k).
  { apply (Permutation_count_occ Z.eq_dec). exact Hp. }
  rewrite (map_ext _ _ (fun k => f_equal (fun n => Z.of_nat n - 1) (Ho k))).
  assert (Hd : Z.of_nat (length bytes) / 3 <= Z.of_nat (length bytes))
    by (apply Z.div_le_upper_bound; lia).
  unfold build. destruct (sort_keys cs bytes) as [|k rest]; [reflexivity|].
  inversion Hs as [|? ? Hs' Hk]. subst.
  cbn [walk is_duplicate emitted length app] in *.
  rewrite Nat2Z.inj_succ in Hl.
  change (walk (fun _ => 0) (Some k) rest _)
    with (walk (fun _ => 0) (Some k) rest ([] ++ [point_of 0 k])).
  rewrite (walk_counts_occ rest k [] (point_of 0 k)); try assumption.
  - cbn [map app point_of new_Point count].
    rewrite count_occ_cons_eq by reflexivity. rewrite Nat2Z.inj_succ.
    f_equal; [lia|].
    destruct (emitted_increasing rest (Some k) Hs') as [_ Hgt].
    { intros q' [= <-]. exact Hk. }
    specialize (Hgt k eq_refl). rewrite Forall_forall in Hgt.
    apply map_ext_in. intros k' Hin. specialize (Hgt k' Hin).
    rewrite count_occ_cons_neq by lia. reflexivity.
  - cbn; lia.
  - cbn [point_of new_Point count]. lia.
Qed.

Lemma count_is_occurrences_witness :
  Z.of_nat (length scenario) < 2 ^ 31
  /\ map count (build true (fun _ => 0) scenario)
     = map (fun k =>
              Z.of_nat (count_occ Z.eq_dec (map (key_of true) (triplets scenario)) k)
              - 1)
           (emitted None (sort_keys true scenario)).
Proof.
  assert (H : Z.of_nat (length scenario) < 2 ^ 31) by reflexivity.
  split; [exact H|].
  exact (count_is_occurrences true scenario H).
Defined.

(** X9: when the counters start at zero and the file is below 2 GiB, the
    counters and the number of points add up to the number of complete
    triplets, [length / 3], which is the value [loadFile] returns. *)
Theorem dedup_total : forall cs (bytes : list byte) old,
  Z.of_nat (length bytes) < 2 ^ 31 ->
  sum_counts (snd (loadFile cs (fun _ => 0) (Some bytes) old))
  + Z.of_nat (length (snd (loadFile cs (fun _ => 0) (Some bytes) old)))
  = fst (loadFile cs (fun _ => 0) (Some bytes) old).
Proof.
  intros cs bytes old Hb. cbn [loadFile fst snd].
  apply build_counts_zero, Hb.
Qed.

Lemma dedup_total_witness :
  Z.of_nat (length scenario) < 2 ^ 31
  /\ sum_counts (snd (loadFile true (fun _ => 0) (Some scenario) []))
     + Z.of_nat (length (snd (loadFile true (fun _ => 0) (Some scenario) [])))
     = fst (loadFile true (fun _ => 0) (Some scenario) []).
Proof.
  assert (H : Z.of_nat (length scenario) < 2 ^ 31) by reflexivity.
  split; [exact H|].
  exact (dedup_total true scenario [] H).
Defined.

(** ** The order of the triplets in the file *)

Lemma sorted_perm_eq (l1 : list Z) : forall l2,
  StronglySorted Z.le l1 -> StronglySorted Z.le l2 -> Permutation l1 l2 ->
  l1 = l2.
Proof.
  induction l1 as [|a l1 IH]; intros l2 S1 S2 P.
  - symmetry. apply Permutation_nil. exact P.
  - destruct l2 as [|b l2].
    { apply Permutation_sym, Permutation_nil in P. discriminate. }
    inversion S1 as [|? ? S1' Ha]. inversion S2 as [|? ? S2' Hb]. subst.
    rewrite Forall_forall in Ha, Hb.
    assert (E : a = b).
    { assert (Hab : In a (b :: l2))
        by (apply (Permutation_in a P); left; reflexivity).
      assert (Hba : In b (a :: l1))
        by (apply (Permutation_in b (Permutation_sym P)); left; reflexivity).
      destruct Hab as [Hab|Hab]; [congruence|].
      destruct Hba as [Hba|Hba]; [congruence|].
      specialize (Ha b Hba). specialize (Hb a Hab). lia. }
    subst b. f_equal. apply IH; try assumption.
    apply Permutation_cons_inv with (a := a). exact P.
Qed.



Lemma triplets_app (a b : list byte) :
  (length a mod 3 = 0)%nat -> triplets (a ++ b) = triplets a ++ triplets b.
Proof.
  intros Hm. apply Nat.Div0.mod_divides in Hm as [n Hn]. revert n Hn.
  induction a as [| a0 | a0 a1 | a0 a1 a2 l IH] using list_ind3;
    intros n Hn; cbn [length] in Hn; try lia.
  - reflexivity.
  - cbn [app triplets]. f_equal. apply (IH (n - 1)%nat). lia.
Qed.



(** ** Where the points lie *)

Lemma unpack_z_key cs b0 b1 b2 :
  unpack_z (key_of cs (b0, b1, b2)) = byte_val b0.
Proof.
  rewrite key_of_value.
  rewrite unpack_z_mod.
  replace (char_of_byte cs b2 * 65536 + char_of_byte cs b1 * 256
           + char_of_byte cs b0)
    with (char_of_byte cs b0
          + (char_of_byte cs b2 * 256 + char_of_byte cs b1) * 256) by lia.
  rewrite Z.mod_add by lia. apply char_of_byte_mod.
Qed.

(** X11: for either signedness of plain [char], every triplet whose first
    byte is zero is drawn at the origin, whatever its other two bytes are:
    the 65536 such triplets are distinct points at one position. *)
Theorem zero_first_byte_at_origin : forall cs (b1 b2 : byte),
  spherical (key_of cs (x00, b1, b2)) = (0, 0, 0)%R.
Proof.
  intros cs b1 b2.
  unfold spherical, position; cbn [point_of new_Point x y z].
  assert (R0 : radius (key_of cs (x00, b1, b2)) = 0%R).
  { unfold radius, z_norm. rewrite unpack_z_key.
    change (byte_val x00) with 0. lra. }
  rewrite R0, !Rmult_0_l. reflexivity.
Qed.

(** X12: reading the float expressions as real numbers, each coordinate of
    each point of the result lies in [-1, 1]. *)
Theorem coordinates_in_unit_cube : forall cs uninit (bytes : list byte),
  Forall (fun p => (-1 <= x p <= 1 /\ -1 <= y p <= 1 /\ -1 <= z p <= 1)%R)
         (build cs uninit bytes).
Proof.
  intros cs uninit bytes.
  pose proof (positions_from_keys _ _ (build_positions cs uninit bytes)) as H.
  eapply Forall_impl; [|exact H].
  intros p (packed & _ & Hp).
  pose proof (spherical_in_ball p packed Hp) as Hn. unfold norm2 in Hn.
  repeat split; nra.
Qed.

(** ** The start of the program *)

Lemma wrap32_le z : 0 <= z -> Int.wrap32 z <= z.
Proof.
  intros Hz. unfold Int.wrap32.
  assert ((z + 2 ^ 31) mod 2 ^ 32 <= z + 2 ^ 31) by (apply Z.mod_le; lia).
  lia.
Qed.

Lemma stream_buffer_length (o : Opened) :
  0 <= stream_length o -> Z.of_nat (length (stream_buffer o)) = stream_length o.
Proof.
  destruct o as [bytes|]; [|intros Hl; exfalso; revert Hl; cbv; congruence].
  intros Hl. unfold stream_buffer. rewrite length_firstn.
  pose proof (wrap32_le (Z.of_nat (length bytes)) (Nat2Z.is_nonneg _)) as Hw.
  change (Int.wrap32 (Z.of_nat (length bytes))) with (stream_length (Regular bytes)) in Hw.
  lia.
Qed.


(** ** Key events *)

(** X14: over any sequence of key events the close flag is never lowered,
    and it is raised exactly when the sequence contains a press of the
    escape key. *)
Theorem key_all_escape : forall (events : list (Z * Z * Z * Z)) (shouldClose : bool),
  key_all events shouldClose
  = shouldClose
    || existsb (fun e => let '(key, sc, action, mods) := e in
                         (action =? GLFW_PRESS) && (key =? GLFW_KEY_ESCAPE))
               events.
Proof.
  induction events as [|[[[key sc] action] mods] events IH]; intros f;
    cbn [key_all fold_left existsb].
  - rewrite orb_false_r. reflexivity.
  - fold (key_all events (keyCallback f key sc action mods)).
    rewrite IH. unfold keyCallback.
    destruct (action =? GLFW_PRESS), (key =? GLFW_KEY_ESCAPE), f; reflexivity.
Qed.

(** ** Cursor moves *)

Lemma last_cons_default {A : Type} (l : list A) : forall a d,
  last (a :: l) d = last l a.
Proof.
  induction l as [|b l IH]; intros a d; [reflexivity|].
  change (last (a :: b :: l) d) with (last (b :: l) d).
  rewrite !IH. reflexivity.
Qed.

Section Cursor.

Context {F : Type} `{Arith F}.

(** X15: while no button is down, cursor moves change nothing but the
    remembered cursor position, which ends at the last position
    delivered. *)
Theorem cursor_idle : forall (moves : list (F * F)) (c : Camera F),
  mouseDown c = false ->
  cursor_all moves c
  = mkCamera (winWidth c) (winHeight c)
      (last (map fst moves) (lastMouseX c)) (last (map snd moves) (lastMouseY c))
      (zoomLevel c) (zoomTarget c) (rotX c) (rotY c)
      (targetRotX c) (targetRotY c) false.
Proof.
  induction moves as [|[mx my] moves IH]; intros c Hc.
  - destruct c; cbn in *. subst. reflexivity.
  - cbn [cursor_all fold_left fst snd].
    fold (cursor_all moves (cursorCallback c mx my)).
    rewrite IH by (unfold cursorCallback; cbn; exact Hc).
    unfold cursorCallback. rewrite Hc.
    cbn [winWidth winHeight lastMouseX lastMouseY zoomLevel zoomTarget
         rotX rotY targetRotX targetRotY map fst snd].
    rewrite !last_cons_default. reflexivity.
Qed.

End Cursor.

Lemma cursor_idle_witness :
  mouseDown (initial (F := float)) = false
  /\ cursor_all [(3, 4); (10, 20)]%float (initial (F := float))
     = mkCamera 0 0 10%float 20%float 1%float 1%float 0%float 0%float
         0%float 0%float false.
Proof.
  split; [reflexivity|].
  exact (cursor_idle [(3, 4); (10, 20)]%float (initial (F := float)) eq_refl).
Defined.

(** ** Invariants of the render loop *)

(** X19: under any trace of frames, cursor moves, button events and
    scrolls from the initial camera, [zoomTarget] never tests below 0.1 in
    the arithmetic of the program.  The [zoomLevel] the points are scaled
    by has no such floor: a trace whose frame times lie in [0, 1] ends
    with [zoomLevel] below 0.1. *)
Theorem zoom_target_floor_traces :
  (forall events : list (Event float),
      (zoomTarget (run events initial) <? f_tenth)%float = false)
  /\ (exists events : list (Event float),
        forallb unit_frame events = true
        /\ (zoomLevel (run events initial) <? f_tenth)%float = true).
Proof.
  split.
  - intros events.
    assert (G : forall c : Camera float,
               (zoomTarget c <? f_tenth)%float = false ->
               (zoomTarget (run events c) <? f_tenth)%float = false).
    { induction events as [|e events IH]; intros c Hc; [exact Hc|].
      cbn [run fold_left]. fold (run events (handle c e)).
      apply IH, handle_zoomTarget_floor, Hc. }
    apply G. reflexivity.
  - exists [Scroll false 0 (-100); Frame 0.5 640 480;
            Scroll true 0 (-3); Frame 1 640 480]%float.
    split; vm_compute; reflexivity.
Qed.

Section Traces.

Local Open Scope R_scope.

Lemma handle_rest (c : Camera R) (e : Event R) :
  no_press e -> mouseDown c = false ->
  rotX c = targetRotX c -> rotY c = targetRotY c ->
  mouseDown (handle c e) = false
  /\ targetRotX (handle c e) = targetRotX c
  /\ targetRotY (handle c e) = targetRotY c
  /\ rotX (handle c e) = rotX c /\ rotY (handle c e) = rotY c.
Proof.
  intros He Hm Hx Hy. destruct e as [dt w h | mx my | b a m | s xo yo];
    cbn [handle set_size advance cursorCallback mouseButtonCallback
         scrollCallback mouseDown targetRotX targetRotY rotX rotY
         f_add f_sub f_mul f_single exact].
  - rewrite Hx, Hy. repeat split; try assumption; ring.
  - rewrite Hm. repeat split.
  - cbn [no_press] in He. repeat split. apply Z.eqb_neq. exact He.
  - repeat split. exact Hm.
Qed.

(** X20: as long as no button has been pressed, the view does not rotate:
    from the initial camera, any trace without a press leaves the
    rotation targets and the rotation angles at zero, in exact
    arithmetic, however the cursor moves. *)
Theorem no_rotation_without_press : forall events : list (Event R),
  Forall no_press events ->
  targetRotX (run events initial) = 0 /\ targetRotY (run events initial) = 0
  /\ rotX (run events initial) = 0 /\ rotY (run events initial) = 0
  /\ drag_state (run events initial) = Idle.
Proof.
  intros events Hf.
  assert (G : forall c : Camera R,
             mouseDown c = false ->
             rotX c = targetRotX c -> rotY c = targetRotY c ->
             mouseDown (run events c) = false
             /\ targetRotX (run events c) = targetRotX c
             /\ targetRotY (run events c) = targetRotY c
             /\ rotX (run events c) = rotX c /\ rotY (run events c) = rotY c).
  { induction Hf as [|e events He Hf IH]; intros c Hm Hx Hy.
    - repeat split. exact Hm.
    - cbn [run fold_left]. fold (run events (handle c e)).
      destruct (handle_rest c e He Hm Hx Hy) as (Hm' & Tx & Ty & Rx & Ry).
      destruct (IH (handle c e)) as (M & A & B & C & D);
        [exact Hm'|congruence|congruence|].
      repeat split; congruence. }
  destruct (G initial) as (M & A & B & C & D); try reflexivity.
  unfold drag_state. rewrite M, A, B, C, D. repeat split.
Qed.

Lemma no_rotation_without_press_witness :
  Forall no_press [CursorPos 5 7; Frame (1 / 2) 640 480;
                   MouseButton 0 GLFW_RELEASE 0; CursorPos 50 70]
  /\ targetRotX (run [CursorPos 5 7; Frame (1 / 2) 640 480;
                      MouseButton 0 GLFW_RELEASE 0; CursorPos 50 70] initial)
     = 0.
Proof.
  assert (H : Forall no_press [CursorPos 5 7; Frame (1 / 2) 640 480;
                               MouseButton 0 GLFW_RELEASE 0; CursorPos 50 70]).
  { repeat constructor. cbn [no_press]. discriminate. }
  split; [exact H|].
  exact (proj1 (no_rotation_without_press _ H)).
Defined.

End Traces.

(** ** Drawing *)

Section Drawing.

Local Open Scope R_scope.

Lemma vertex_color_range (i n : nat) (p : Point) :
  (i < n)%nat -> (0 <= count p <= 10)%Z ->
  (0 <= fst (fst (vertex_color i n p)) < 1)
  /\ (0 <= snd (fst (vertex_color i n p)) <= 1)
  /\ (0 <= snd (vertex_color i n p) <= 1).
Proof.
  intros Hi Hc. unfold vertex_color. cbn [fst snd].
  assert (Hn : 0 < INR n) by (apply lt_0_INR; lia).
  assert (Hi0 : 0 <= INR i) by apply pos_INR.
  assert (Hin : INR i < INR n) by (apply lt_INR; exact Hi).
  assert (E : INR i / INR n * INR n = INR i) by (field; lra).
  set (r := INR i / INR n) in *.
  assert (Hr : 0 <= r < 1) by nra.
  assert (C0 : IZR 0 <= IZR (count p)) by (apply IZR_le; lia).
  assert (C1 : IZR (count p) <= IZR 10) by (apply IZR_le; lia).
  set (k := IZR (count p)) in *.
  repeat split; try lra; nra.
Qed.



End Drawing.
